(** * PriorityQueue.h: a list-backed priority queue with a subtraction comparator

    Shallow embedding of [include/PriorityQueue.h]:
    - [MyComparator<T>::operator()]  (lines 29-32)
    - [EmptyPriorityQueue::what]     (lines 46-49)
    - [PriorityQueue<T>::push]       (lines 88-97)
    - [PriorityQueue<T>::poll]       (lines 99-107)

    The header is a template: what it needs of the element type [T] is a
    binary [operator-] whose result converts back to [T] and a comparison of
    a [T] with the literal [0].  That implicit interface is the class
    [Arith] below; the built-in integer types are instances of it. *)

From Stdlib Require Import ZArith Lia Sorted.
From stdpp Require Import base list sorting strings.

Local Open Scope Z_scope.

(** ** The element type's interface *)

(** [sub] is [operator-] followed by the conversion of the result to [T]
    (the return type of [MyComparator<T>::operator()]); [cmp0 x] is the
    three-way outcome of comparing [x] with the literal [0], so that
    [x < 0] reads [cmp0 x = Lt]. *)
Class Arith (T : Type) := {
  sub : T -> T -> T;
  cmp0 : T -> comparison
}.

(** [x < 0], the test of the scan loop of [push]. *)
Definition lt0 {T} `{Arith T} (x : T) : bool :=
  match cmp0 x with Lt => true | _ => false end.

(** ** Built-in integer element types *)

(** A signed [w]-bit integer: the value is kept as a [Z], and arithmetic is
    reduced to the two's complement range [-2^(w-1) .. 2^(w-1)-1].

    For a type narrower than [int] this is what the source does: the
    operands are promoted, [val1 - val2] is computed in [int], where it
    cannot overflow, and the conversion of the result back to [T] is the
    reduction.  For [int] and the wider types the reduction changes nothing
    as long as the difference is representable; when it is not, C++ leaves
    the subtraction undefined, and the wrapped value is only one of the
    results a build may give.  What is stated below about an overflowing
    difference is therefore stated for the types narrower than [int].

    The carrier is all of [Z]; the values of the C++ type are those in
    [srange], and every result of [sub] is one of them. *)
Record sint (w : positive) : Type := SInt { sval : Z }.
Arguments SInt {w} _.
Arguments sval {w} _.

(** An unsigned [w]-bit integer: arithmetic is modulo [2^w]. *)
Record uint (w : positive) : Type := UInt { uval : Z }.
Arguments UInt {w} _.
Arguments uval {w} _.

Definition half (w : positive) : Z := 2 ^ (Z.pos w - 1).

Definition swrap (w : positive) (x : Z) : Z :=
  (x + half w) mod 2 ^ Z.pos w - half w.

Definition uwrap (w : positive) (x : Z) : Z := x mod 2 ^ Z.pos w.

Definition srange (w : positive) (x : Z) : Prop := - half w <= x < half w.
Definition urange (w : positive) (x : Z) : Prop := 0 <= x < 2 ^ Z.pos w.

#[export] Instance sint_arith (w : positive) : Arith (sint w) := {
  sub a b := SInt (swrap w (sval a - sval b));
  cmp0 x := sval x ?= 0
}.

#[export] Instance uint_arith (w : positive) : Arith (uint w) := {
  sub a b := UInt (uwrap w (uval a - uval b));
  cmp0 x := uval x ?= 0
}.

(** [w] bits are fewer than the [int_bits] bits of [int]: the signed type
    is one of those that are promoted to [int] before the subtraction. *)
Definition narrower_than_int (int_bits w : positive) : Prop :=
  (w < int_bits)%positive.

(** The order of the values, and what it takes for the subtraction to see
    it: no difference of two values of [l] leaves the range of the type. *)
Definition sle {w : positive} (a b : sint w) : Prop := sval a <= sval b.

Definition no_overflow {w : positive} (l : list (sint w)) : Prop :=
  forall a b, a ∈ l -> b ∈ l -> srange w (sval a - sval b).

(** ** An element type with a payload

    The template takes any [T] with the two operations above.  A caller's
    record type with a signed rank and a payload next to it, whose
    [operator-] subtracts the ranks and keeps the left payload and whose
    comparison with [0] reads the rank, is used below to tell apart two
    elements of equal rank. *)
Record ranked (w : positive) : Type := Ranked { rank : sint w; payload : Z }.
Arguments Ranked {w} _ _.
Arguments rank {w} _.
Arguments payload {w} _.

#[export] Instance ranked_arith (w : positive) : Arith (ranked w) := {
  sub a b := Ranked (sub (rank a) (rank b)) (payload a);
  cmp0 x := cmp0 (rank x)
}.

(** ** MyComparator *)

(** The primary template [struct MyComparator<T>], which has no data
    member. *)
Record MyComparator (T : Type) : Type := Build_MyComparator_ { }.
Arguments Build_MyComparator_ {T}.

(** [T operator()(const T& val1, const T& val2) const { return val1 - val2; }] *)
Definition operator_call {T} `{Arith T} (c : MyComparator T) (val1 val2 : T) : T :=
  sub val1 val2.

(** ** EmptyPriorityQueue *)

Inductive exception : Type := EmptyPriorityQueue.

(** [const char* what() const noexcept] *)
Definition what (e : exception) : string :=
  match e with EmptyPriorityQueue => "PriorityQueue is empty!"%string end.

(** ** PriorityQueue *)

(** The two private members, [std::list<T> _data] and
    [MyComparator<T> _compare]. *)
Record PriorityQueue (T : Type) : Type := Build_PriorityQueue_ {
  _data : list T;
  _compare : MyComparator T
}.
Arguments Build_PriorityQueue_ {T} _ _.
Arguments _data {T} _.
Arguments _compare {T} _.

(** The implicit default constructor: an empty list and a
    default-constructed comparator. *)
Definition PriorityQueue_new {T} : PriorityQueue T :=
  {| _data := []; _compare := Build_MyComparator_ |}.

Section Queue.
Context {T : Type} `{Arith T}.

(** The scan loop of [push].  The iterator [it] is the number of elements
    before it; [rest] holds the elements from [it] to [_data.end()]:
    [while (it != _data.end() && _compare( *it, t) < 0) ++it;] *)
Fixpoint scan (c : MyComparator T) (rest : list T) (t : T) (it : nat) : nat :=
  match rest with
  | [] => it
  | e :: rest' =>
      if lt0 (operator_call c e t) then scan c rest' t (S it) else it
  end.

(** [std::list::insert(it, t)]: the new element goes before position [it]. *)
Definition list_insert_before (it : nat) (t : T) (l : list T) : list T :=
  take it l ++ t :: drop it l.

Definition push (q : PriorityQueue T) (t : T) : PriorityQueue T :=
  let it := scan (_compare q) (_data q) t 0%nat in
  {| _data := list_insert_before it t (_data q); _compare := _compare q |}.

(** [poll] either throws, leaving the queue as it is, or returns the front
    element and the queue without it. *)
Definition poll (q : PriorityQueue T) : (exception + T) * PriorityQueue T :=
  match _data q with
  | [] => (inl EmptyPriorityQueue, q)
  | element :: rest =>
      (inr element, {| _data := rest; _compare := _compare q |})
  end.

(** A run of pushes, first value first. *)
Definition push_all (q : PriorityQueue T) (vs : list T) : PriorityQueue T :=
  fold_left push vs q.

(** [n] polls in a row; the run ends at the first exception. *)
Fixpoint poll_n (n : nat) (q : PriorityQueue T)
  : (exception + list T) * PriorityQueue T :=
  match n with
  | O => (inr [], q)
  | S n' =>
      match poll q with
      | (inl e, q') => (inl e, q')
      | (inr x, q') =>
          match poll_n n' q' with
          | (inl e, q'') => (inl e, q'')
          | (inr xs, q'') => (inr (x :: xs), q'')
          end
      end
  end.

(** Queue states reachable from the constructor by [push] and by [poll]
    (a throwing [poll] included: it leaves the state as it is). *)
Inductive reachable : PriorityQueue T -> Prop :=
| reach_new : reachable PriorityQueue_new
| reach_push q t : reachable q -> reachable (push q t)
| reach_poll q : reachable q -> reachable (poll q).2.

(** *** The insertion in the spec's words

    "scan the sequence from the front; advance past each element [e] for
    which [compare(e, value) < 0]; stop at the first position where this
    is false; insert [value] immediately before that position (or at the
    end if no such position exists)", for a comparator [compare] given by
    the caller. *)
Fixpoint OrderedQueue_push (compare : T -> T -> T) (l : list T) (value : T)
  : list T :=
  match l with
  | [] => [value]
  | e :: l' =>
      if lt0 (compare e value) then e :: OrderedQueue_push compare l' value
      else value :: e :: l'
  end.

(** *** Order under the comparator *)

(** [compare(a, b) <= 0] for the queue's own comparator. *)
Definition le0 (a b : T) : Prop := cmp0 (sub a b) <> Gt.

(** [compare(a, b) >= 0]. *)
Definition ge0 (a b : T) : Prop := cmp0 (sub a b) <> Lt.

(** Every pair of adjacent elements, [a] earlier and [b] later, is related
    by [R]. *)
Definition adjacent (R : T -> T -> Prop) (l : list T) : Prop :=
  forall l1 a b l2, l = l1 ++ a :: b :: l2 -> R a b.

(** What the scan needs of the comparator for the order to be kept: when
    [compare(e, v) < 0] is false, then [compare(v, e) <= 0]. *)
Definition sign_antisym : Prop :=
  forall e v : T, cmp0 (sub e v) <> Lt -> cmp0 (sub v e) <> Gt.

(** *** Stability in the spec's words

    "a newly pushed element is inserted after all existing elements equal
    to it": every element of the queue that is equal to [v] under the
    comparator sits at an index below the one where the scan for [v]
    stops. *)
Definition inserted_after_equals (q : PriorityQueue T) (v : T) : Prop :=
  forall (i : nat) (e : T),
    _data q !! i = Some e ->
    cmp0 (operator_call (_compare q) e v) = Eq ->
    (i < scan (_compare q) (_data q) v 0)%nat.

End Queue.

(** Membership in a list written with [::] and [++]. *)
Ltac elem :=
  repeat first
    [ assumption
    | apply list_elem_of_here
    | apply list_elem_of_further
    | apply elem_of_app; first [ left; elem; fail | right; elem; fail ] ].

(** ** Lemmas on the scan and the insertion *)

Section QueueFacts.
Context {T : Type} `{Arith T}.

Implicit Types (q : PriorityQueue T) (l : list T) (t v a b : T).

Lemma operator_call_sub (c : MyComparator T) a b :
  operator_call c a b = sub a b.
Proof. reflexivity. Qed.

Lemma comparator_unique (c1 c2 : MyComparator T) : c1 = c2.
Proof. destruct c1, c2; reflexivity. Qed.

Lemma lt0_true (x : T) : lt0 x = true <-> cmp0 x = Lt.
Proof. unfold lt0; destruct (cmp0 x); split; congruence. Qed.

Lemma lt0_false (x : T) : lt0 x = false <-> cmp0 x <> Lt.
Proof. unfold lt0; destruct (cmp0 x); split; congruence. Qed.

(** The iterator only counts: starting the scan at [it] ends [it] further. *)
Lemma scan_shift c l t (it : nat) :
  scan c l t it = (it + scan c l t 0)%nat.
Proof.
  revert it; induction l as [|e l IH]; intros it; simpl.
  - lia.
  - destruct (lt0 (operator_call c e t)); [|lia].
    rewrite (IH (S it)), (IH 1%nat); lia.
Qed.

Lemma scan_le_length c l t : (scan c l t 0 <= length l)%nat.
Proof.
  induction l as [|e l IH]; simpl; [lia|].
  destruct (lt0 (operator_call c e t)); [|lia].
  rewrite scan_shift; lia.
Qed.

(** The loop followed by [insert] is the insertion of the spec, with the
    subtraction as comparator. *)
Lemma scan_insert c l t :
  list_insert_before (scan c l t 0) t l = OrderedQueue_push sub l t.
Proof.
  unfold list_insert_before.
  induction l as [|e l IH]; simpl; [reflexivity|].
  rewrite operator_call_sub.
  destruct (lt0 (sub e t)); [|reflexivity].
  rewrite scan_shift; simpl. by rewrite IH.
Qed.

Lemma push_data q t : _data (push q t) = OrderedQueue_push sub (_data q) t.
Proof. unfold push; simpl. apply scan_insert. Qed.

(** Where the insertion lands: past a prefix of strictly smaller elements,
    in front of an element that is not strictly smaller (or at the end). *)
Lemma insert_split (cmp : T -> T -> T) l v :
  exists l1 l2,
    l = l1 ++ l2
    /\ OrderedQueue_push cmp l v = l1 ++ v :: l2
    /\ Forall (fun e => cmp0 (cmp e v) = Lt) l1
    /\ (forall e l2', l2 = e :: l2' -> cmp0 (cmp e v) <> Lt).
Proof.
  induction l as [|e l (l1 & l2 & -> & Hp & Hlt & Hhd)]; simpl.
  - exists [], []. repeat split; [constructor | discriminate].
  - destruct (lt0 (cmp e v)) eqn:E.
    + exists (e :: l1), l2. rewrite Hp. repeat split; [|exact Hhd].
      constructor; [by apply lt0_true | exact Hlt].
    + exists [], (e :: l1 ++ l2). repeat split; [constructor|].
      intros e' l2' [= <- _]. by apply lt0_false.
Qed.

Lemma insert_length (cmp : T -> T -> T) l v :
  length (OrderedQueue_push cmp l v) = S (length l).
Proof.
  induction l as [|e l IH]; simpl; [reflexivity|].
  destruct (lt0 (cmp e v)); simpl; [by rewrite IH | reflexivity].
Qed.

Lemma insert_perm (cmp : T -> T -> T) l v :
  OrderedQueue_push cmp l v ≡ₚ v :: l.
Proof.
  induction l as [|e l IH]; simpl; [reflexivity|].
  destruct (lt0 (cmp e v)); [|reflexivity].
  rewrite IH. apply Permutation_swap.
Qed.

Lemma insert_sublist (cmp : T -> T -> T) l v :
  l `sublist_of` OrderedQueue_push cmp l v.
Proof.
  induction l as [|e l IH]; simpl; [apply sublist_nil_l|].
  destruct (lt0 (cmp e v)).
  - by apply sublist_skip.
  - by apply sublist_cons.
Qed.

(** *** Adjacent order and [Sorted] *)

Lemma adjacent_Sorted (R : T -> T -> Prop) l : adjacent R l <-> Sorted R l.
Proof.
  split.
  - induction l as [|a l IH]; intros Ha; [constructor|].
    constructor.
    + apply IH. intros l1 x y l2 ->. apply (Ha (a :: l1) x y l2). reflexivity.
    + destruct l as [|b l]; constructor.
      apply (Ha [] a b l). reflexivity.
  - induction 1 as [|a l Hs IH Hhd]; intros l1 x y l2 E.
    + by destruct l1.
    + destruct l1 as [|a' l1]; simplify_eq/=.
      * by inversion Hhd.
      * by eapply IH.
Qed.

Lemma insert_Sorted l v :
  sign_antisym -> Sorted le0 l -> Sorted le0 (OrderedQueue_push sub l v).
Proof.
  intros Hanti. induction 1 as [|e l Hs IH Hhd]; simpl.
  - repeat constructor.
  - destruct (lt0 (sub e v)) eqn:E.
    + constructor; [exact IH|].
      destruct l as [|e' l]; simpl.
      * constructor. unfold le0. apply lt0_true in E. congruence.
      * destruct (lt0 (sub e' v)); constructor.
        -- by inversion Hhd.
        -- unfold le0. apply lt0_true in E. congruence.
    + constructor; [by constructor|].
      constructor. apply Hanti. by apply lt0_false.
Qed.

Lemma push_Sorted q v :
  sign_antisym -> Sorted le0 (_data q) -> Sorted le0 (_data (push q v)).
Proof. rewrite push_data. apply insert_Sorted. Qed.

Lemma poll_Sorted (R : T -> T -> Prop) q :
  Sorted R (_data q) -> Sorted R (_data (poll q).2).
Proof.
  unfold poll. destruct (_data q) as [|x l] eqn:E; simpl.
  - by rewrite E.
  - by inversion 1.
Qed.

Lemma push_all_Sorted q vs :
  sign_antisym -> Sorted le0 (_data q) -> Sorted le0 (_data (push_all q vs)).
Proof.
  intros Hanti. revert q. induction vs as [|v vs IH]; intros q Hq; [exact Hq|].
  simpl. apply IH. by apply push_Sorted.
Qed.

Lemma push_all_length q vs :
  length (_data (push_all q vs)) = (length (_data q) + length vs)%nat.
Proof.
  revert q. induction vs as [|v vs IH]; intros q; simpl; [lia|].
  rewrite IH, push_data, insert_length. lia.
Qed.

Lemma push_all_perm q vs : _data (push_all q vs) ≡ₚ vs ++ _data q.
Proof.
  revert q. induction vs as [|v vs IH]; intros q; simpl; [reflexivity|].
  rewrite IH, push_data, insert_perm. by rewrite Permutation_middle.
Qed.

(** Draining: as many polls as there are elements return them front to
    back and leave the list empty. *)
Lemma poll_n_drain q :
  poll_n (length (_data q)) q
  = (inr (_data q), {| _data := []; _compare := _compare q |}).
Proof.
  destruct q as [l c]; simpl. induction l as [|x l IH]; simpl; [reflexivity|].
  unfold poll; simpl. by rewrite IH.
Qed.

End QueueFacts.

(** ** The subtraction comparator on the built-in integers *)

Section Integers.
Variable w : positive.

Lemma half_pos : 0 < half w.
Proof. unfold half. apply Z.pow_pos_nonneg; lia. Qed.

Lemma pow_half : 2 ^ Z.pos w = 2 * half w.
Proof.
  unfold half. rewrite <- Z.pow_succ_r by lia. f_equal. lia.
Qed.

Lemma swrap_range x : srange w (swrap w x).
Proof.
  unfold srange, swrap. pose proof half_pos.
  pose proof (Z.mod_pos_bound (x + half w) (2 ^ Z.pos w)) as Hb.
  rewrite pow_half in *. lia.
Qed.

(** Without overflow the wrap-around does nothing. *)
Lemma swrap_exact x : srange w x -> swrap w x = x.
Proof.
  unfold srange, swrap. intros Hx. rewrite pow_half.
  rewrite Z.mod_small; lia.
Qed.

Lemma uwrap_range x : urange w (uwrap w x).
Proof.
  unfold urange, uwrap. apply Z.mod_pos_bound. rewrite pow_half.
  pose proof half_pos. lia.
Qed.

Lemma uwrap_exact x : urange w x -> uwrap w x = x.
Proof. unfold urange, uwrap. intros Hx. by apply Z.mod_small. Qed.

(** In two's complement, the opposite of a wrapped difference that is not
    negative is the wrapped opposite difference. *)
Lemma swrap_opp x : 0 <= swrap w x -> swrap w (- x) = - swrap w x.
Proof.
  unfold swrap. pose proof half_pos as Hh. rewrite pow_half.
  set (m := 2 * half w).
  pose proof (Z.mod_pos_bound (x + half w) m ltac:(lia)) as Hb.
  pose proof (Z.div_mod (x + half w) m ltac:(lia)) as Hd.
  intros Hr.
  assert (m - (x + half w) mod m = (- x + half w) mod m) as <-; [|lia].
  apply (Z.mod_unique _ _ (- ((x + half w) / m))); lia.
Qed.

(** The reduced subtraction satisfies what the scan needs, at every
    difference. *)
Lemma sint_antisym : sign_antisym (T := sint w).
Proof.
  intros e v; simpl. intros Hge.
  replace (sval v - sval e) with (- (sval e - sval v)) by lia.
  assert (0 <= swrap w (sval e - sval v)) as H0.
  { destruct (Z.compare_spec (swrap w (sval e - sval v)) 0); try lia. done. }
  rewrite swrap_opp by done.
  destruct (Z.compare_spec (- swrap w (sval e - sval v)) 0); try done. lia.
Qed.

(** An unsigned difference is never below zero. *)
Lemma uint_sub_not_lt (a b : uint w) : cmp0 (sub a b) <> Lt.
Proof.
  simpl. pose proof (uwrap_range (uval a - uval b)) as Hr. unfold urange in Hr.
  destruct (Z.compare_spec (uwrap w (uval a - uval b)) 0); try done. lia.
Qed.

End Integers.

(** ** Where equal elements end up *)

Section Ties.
Context {T : Type} `{Arith T}.

Implicit Types (q : PriorityQueue T) (l : list T) (t v a b : T).

(** The scan stops at or before every element that is not strictly below
    the pushed value. *)
Lemma scan_stops_before c l v (i : nat) e :
  l !! i = Some e -> cmp0 (operator_call c e v) <> Lt ->
  (scan c l v 0 <= i)%nat.
Proof.
  revert i. induction l as [|x l IH]; intros i Hi Hge; [done|].
  simpl. destruct (lt0 (operator_call c x v)) eqn:E; [|lia].
  destruct i as [|i]; simpl in Hi.
  - injection Hi as ->. apply lt0_true in E. contradiction.
  - rewrite scan_shift. specialize (IH i Hi Hge). lia.
Qed.

(** Pushing [b] into a sequence that holds an [a] not strictly below [b]
    puts [b] somewhere in front of that [a]. *)
Lemma insert_in_front l1 a l2 b :
  cmp0 (sub a b) <> Lt ->
  exists p m,
    l1 = p ++ m
    /\ OrderedQueue_push sub (l1 ++ a :: l2) b = p ++ b :: m ++ a :: l2.
Proof.
  intros Hab. induction l1 as [|e l1 (p & m & -> & IH)]; simpl.
  - exists [], []. split; [done|].
    apply lt0_false in Hab. by rewrite Hab.
  - destruct (lt0 (sub e b)).
    + exists (e :: p), m. split; [done|]. simpl. by rewrite IH.
    + exists [], (e :: p ++ m). split; [done|]. simpl. by rewrite <- app_assoc.
Qed.

Lemma insert_before_elem l a b :
  a ∈ l -> cmp0 (sub a b) <> Lt ->
  [b; a] `sublist_of` OrderedQueue_push sub l b.
Proof.
  intros Ha Hab. apply list_elem_of_split in Ha as (l1 & l2 & ->).
  destruct (insert_in_front l1 a l2 b Hab) as (p & m & _ & ->).
  apply sublist_inserts_l, sublist_skip, sublist_inserts_l, sublist_skip.
  apply sublist_nil_l.
Qed.

Lemma push_all_sublist q vs : _data q `sublist_of` _data (push_all q vs).
Proof.
  revert q. induction vs as [|v vs IH]; intros q; simpl; [done|].
  etrans; [|apply IH]. rewrite push_data. apply insert_sublist.
Qed.

Lemma push_all_app q vs1 vs2 :
  push_all q (vs1 ++ vs2) = push_all (push_all q vs1) vs2.
Proof. unfold push_all. apply fold_left_app. Qed.

(** Of two pushed values, the later one ends up in front of the earlier one
    unless the earlier one is strictly below it. *)
Lemma push_all_later_first q l1 a l2 b l3 :
  cmp0 (sub a b) <> Lt ->
  [b; a] `sublist_of` _data (push_all q (l1 ++ a :: l2 ++ b :: l3)).
Proof.
  intros Hab.
  rewrite push_all_app. simpl. change (fold_left push ?l ?q0) with (push_all q0 l).
  rewrite push_all_app. simpl. change (fold_left push ?l ?q0) with (push_all q0 l).
  etrans; [|apply push_all_sublist].
  rewrite push_data. apply insert_before_elem; [|done].
  apply singleton_sublist_l. etrans; [|apply push_all_sublist].
  rewrite push_data. apply singleton_sublist_l.
  rewrite insert_perm. left.
Qed.

Lemma reachable_Sorted q :
  sign_antisym -> reachable q -> Sorted le0 (_data q).
Proof.
  intros Hanti. induction 1 as [|q t _ IH|q _ IH].
  - constructor.
  - by apply push_Sorted.
  - by apply poll_Sorted.
Qed.

End Ties.

(** ** The scan, read off the source loop *)

Section Scan.
Context {T : Type} `{Arith T}.

Implicit Types (q : PriorityQueue T) (l : list T) (t v a b : T).

Lemma scan_passed_lt c l v :
  Forall (fun e => lt0 (operator_call c e v) = true) (take (scan c l v 0) l).
Proof.
  induction l as [|e l IH]; simpl; [constructor|].
  destruct (lt0 (operator_call c e v)) eqn:E; [|constructor].
  rewrite scan_shift. simpl. by constructor.
Qed.

Lemma scan_stop_not_lt c l v :
  match drop (scan c l v 0) l with
  | [] => True
  | e :: _ => lt0 (operator_call c e v) = false
  end.
Proof.
  induction l as [|e l IH]; simpl; [done|].
  destruct (lt0 (operator_call c e v)) eqn:E; [|done].
  rewrite scan_shift. simpl. exact IH.
Qed.

Lemma drain_push_all (vs : list T) :
  poll_n (length vs) (push_all PriorityQueue_new vs)
  = (inr (_data (push_all PriorityQueue_new vs)), PriorityQueue_new).
Proof.
  pose proof (poll_n_drain (push_all PriorityQueue_new vs)) as Hd.
  rewrite push_all_length in Hd. simpl in Hd. rewrite Hd.
  f_equal. unfold PriorityQueue_new. f_equal. apply comparator_unique.
Qed.

End Scan.

(** ** The spec's test sequences on [int] *)

(** P5: [push(5)], [push(1)], [push(3)], [poll() == 1], [push(2)],
    [poll() == 2], [poll() == 3], [poll() == 5], and a last [poll()]
    throws. *)
Example interleaving :
  let q0 : PriorityQueue (sint 32) :=
    push_all PriorityQueue_new [SInt 5; SInt 1; SInt 3] in
  let '(r1, q1) := poll q0 in
  let '(r2, q2) := poll (push q1 (SInt 2)) in
  let '(r3, q3) := poll q2 in
  let '(r4, q4) := poll q3 in
  let '(r5, q5) := poll q4 in
  [r1; r2; r3; r4; r5]
  = [inr (SInt 1); inr (SInt 2); inr (SInt 3); inr (SInt 5);
     inl EmptyPriorityQueue].
Proof. reflexivity. Qed.

(** P6: three pushes of [4], three polls that return [4], and a fourth
    poll that throws. *)
Example duplicates :
  let q0 : PriorityQueue (sint 32) :=
    push_all PriorityQueue_new [SInt 4; SInt 4; SInt 4] in
  (poll_n 3 q0).1 = inr [SInt 4; SInt 4; SInt 4]
  /\ (poll (poll_n 3 q0).2).1 = inl EmptyPriorityQueue
  /\ (poll_n 4 q0).1 = inl EmptyPriorityQueue.
Proof. repeat split. Qed.

(** Two elements of equal rank with different payloads: the one pushed
    second is polled first. *)
Example equal_rank_observed :
  (poll_n 2 (push_all PriorityQueue_new
               [Ranked (SInt 4) 1; Ranked (SInt 4) 2] : PriorityQueue (ranked 32))).1
  = inr [Ranked (SInt 4) 2; Ranked (SInt 4) 1].
Proof. reflexivity. Qed.

(** With the reduced subtraction the queue stays ordered under the
    comparator, at every width. *)
Lemma signed_reachable_Sorted (w : positive) (q : PriorityQueue (sint w)) :
  reachable q -> Sorted le0 (_data q).
Proof. apply reachable_Sorted, sint_antisym. Qed.

(** ** The claims *)

(** C1 (code defect): the ordering invariant of the claim, which the
    docstring of [MyComparator] backs ("If val1 < val2, it returns a
    negative value"), is broken by the code at an unsigned element type:
    after [push(1)], [push(2)] on a [PriorityQueue<unsigned>] the sequence
    is [2, 1], and [compare(2, 1) = 1] is not [<= 0]. *)
Lemma ordering_invariant_fails_unsigned :
  _data (push_all PriorityQueue_new [UInt 1; UInt 2] : PriorityQueue (uint 32))
  = [UInt 2; UInt 1]
  /\ ~ adjacent le0
       (_data (push_all PriorityQueue_new [UInt 1; UInt 2] : PriorityQueue (uint 32))).
Proof.
  split; [reflexivity|].
  intros Hadj. apply (Hadj [] (UInt 2) (UInt 1) [] eq_refl). reflexivity.
Qed.

(** Where the ordering invariant does hold: when the comparator is such
    that [compare(e, v) < 0] being false gives [compare(v, e) <= 0], then
    after any prefix of any sequence of pushes on a new queue every two
    adjacent elements [a] (earlier) and [b] (later) have
    [compare(a, b) <= 0], and every push and every poll keeps that. *)
Theorem ordering_invariant {T} `{Arith T} :
  sign_antisym ->
  (forall vs pre : list T,
      pre `prefix_of` vs ->
      adjacent le0 (_data (push_all PriorityQueue_new pre)))
  /\ (forall (q : PriorityQueue T) v,
        adjacent le0 (_data q) -> adjacent le0 (_data (push q v)))
  /\ (forall q : PriorityQueue T,
        adjacent le0 (_data q) -> adjacent le0 (_data (poll q).2)).
Proof.
  intros Hanti. repeat split.
  - intros vs pre _. apply adjacent_Sorted, push_all_Sorted; [done|constructor].
  - intros q v Hq. apply adjacent_Sorted, push_Sorted; [done|].
    by apply adjacent_Sorted.
  - intros q Hq. apply adjacent_Sorted, poll_Sorted. by apply adjacent_Sorted.
Qed.

Lemma ordering_invariant_witness :
  sign_antisym (T := sint 32)
  /\ adjacent le0
       (_data (push_all PriorityQueue_new [SInt 5; SInt 1] : PriorityQueue (sint 32))).
Proof.
  split; [apply sint_antisym|].
  apply (proj1 (ordering_invariant (sint_antisym 32))
           [SInt 5; SInt 1; SInt 3] [SInt 5; SInt 1]).
  exists [SInt 3]. reflexivity.
Defined.

(** C2, as stated, fails on [int]: after [push(1)], [push(2)] the sequence
    is [1, 2] and [compare(1, 2) = -1] is not [>= 0]. *)
Lemma adjacent_ge0_fails :
  _data (push_all PriorityQueue_new [SInt 1; SInt 2] : PriorityQueue (sint 32))
  = [SInt 1; SInt 2]
  /\ reachable (push_all PriorityQueue_new [SInt 1; SInt 2] : PriorityQueue (sint 32))
  /\ ~ adjacent ge0
       (_data (push_all PriorityQueue_new [SInt 1; SInt 2] : PriorityQueue (sint 32))).
Proof.
  split; [reflexivity|]. split; [repeat constructor|].
  intros Hadj. apply (Hadj [] (SInt 1) (SInt 2) [] eq_refl). reflexivity.
Qed.

(** C2 (amended): in every queue state reachable by pushes and polls, any
    two adjacent elements [a] (earlier) and [b] (later) have
    [compare(a, b) <= 0] under the queue's comparator, provided the
    comparator is such that [compare(e, v) < 0] being false gives
    [compare(v, e) <= 0]. *)
Theorem reachable_adjacent_le0 {T} `{Arith T} (q : PriorityQueue T) :
  sign_antisym -> reachable q ->
  forall l1 a b l2,
    _data q = l1 ++ a :: b :: l2 ->
    cmp0 (operator_call (_compare q) a b) <> Gt.
Proof.
  intros Hanti Hq l1 a b l2 E.
  pose proof (reachable_Sorted q Hanti Hq) as Hs.
  apply adjacent_Sorted in Hs. exact (Hs l1 a b l2 E).
Qed.

Lemma reachable_adjacent_le0_witness :
  reachable (push (push PriorityQueue_new (SInt 2)) (SInt 1) : PriorityQueue (sint 32))
  /\ cmp0 (operator_call Build_MyComparator_ (SInt 1 : sint 32) (SInt 2)) <> Gt.
Proof.
  split; [repeat constructor|].
  apply (reachable_adjacent_le0
           (push (push PriorityQueue_new (SInt 2)) (SInt 1))
           (sint_antisym 32)
           (reach_push _ _ (reach_push _ _ reach_new))
           [] (SInt 1) (SInt 2) []).
  reflexivity.
Defined.

(** C3, as stated, fails: pushing [4] on the queue that holds one [4] stops
    the scan at index 0, in front of the existing [4], not after it. *)
Lemma stability_fails :
  _data (push PriorityQueue_new (SInt 4) : PriorityQueue (sint 32)) = [SInt 4]
  /\ scan Build_MyComparator_ [SInt 4 : sint 32] (SInt 4) 0 = 0%nat
  /\ ~ inserted_after_equals
       (push PriorityQueue_new (SInt 4) : PriorityQueue (sint 32)) (SInt 4).
Proof.
  split; [reflexivity|]. split; [reflexivity|].
  intros Hs. specialize (Hs 0%nat (SInt 4) eq_refl eq_refl).
  vm_compute in Hs. lia.
Qed.

(** C3 (amended): a newly pushed element is inserted in front of all
    existing elements equal to it; so pushing [a] then [b] with
    [compare(a, b) == 0] puts [b] in front of [a], and the polls that empty
    the queue return [b] before [a]: elements of equal rank leave the queue
    in the reverse of their insertion order. *)
Theorem equal_rank_later_first {T} `{Arith T} (q : PriorityQueue T) (a b : T) :
  cmp0 (operator_call (_compare q) a b) = Eq ->
  (forall (i : nat) (e : T),
      _data (push q a) !! i = Some e ->
      cmp0 (operator_call (_compare q) e b) = Eq ->
      (scan (_compare q) (_data (push q a)) b 0 <= i)%nat)
  /\ exists p m s,
       _data q = (p ++ m) ++ s
       /\ _data (push q a) = (p ++ m) ++ a :: s
       /\ _data (push (push q a) b) = p ++ b :: m ++ a :: s
       /\ (poll_n (length (p ++ b :: m ++ a :: s)) (push (push q a) b)).1
          = inr (p ++ b :: m ++ a :: s).
Proof.
  intros Hab. split.
  - intros i e Hi He. apply (scan_stops_before _ _ _ i e Hi).
    rewrite operator_call_sub in *. congruence.
  - destruct (insert_split sub (_data q) a) as (l1 & s & Hq & Ha & _ & _).
    destruct (insert_in_front l1 a s b) as (p & m & -> & Hb).
    { rewrite operator_call_sub in Hab. congruence. }
    exists p, m, s. rewrite !push_data, Ha, Hb. repeat split; [done|].
    pose proof (poll_n_drain (push (push q a) b)) as Hd.
    rewrite !push_data, Ha, Hb in Hd. by rewrite Hd.
Qed.

Lemma equal_rank_later_first_witness :
  cmp0 (operator_call Build_MyComparator_ (SInt 4 : sint 32) (SInt 4)) = Eq
  /\ exists p m s : list (sint 32),
       _data (push_all PriorityQueue_new [SInt 7; SInt 1]) = (p ++ m) ++ s
       /\ _data (push (push_all PriorityQueue_new [SInt 7; SInt 1]) (SInt 4))
          = (p ++ m) ++ SInt 4 :: s
       /\ _data (push (push (push_all PriorityQueue_new [SInt 7; SInt 1]) (SInt 4))
                   (SInt 4))
          = p ++ SInt 4 :: m ++ SInt 4 :: s
       /\ (poll_n (length (p ++ SInt 4 :: m ++ SInt 4 :: s))
             (push (push (push_all PriorityQueue_new [SInt 7; SInt 1]) (SInt 4))
                (SInt 4))).1
          = inr (p ++ SInt 4 :: m ++ SInt 4 :: s).
Proof.
  split; [reflexivity|].
  refine (proj2 (equal_rank_later_first
                   (push_all PriorityQueue_new [SInt 7; SInt 1] : PriorityQueue (sint 32))
                   (SInt 4) (SInt 4) _)).
  reflexivity.
Defined.

(** C4: [poll] on an empty queue, freshly constructed or emptied by polls,
    throws [EmptyPriorityQueue], whose message is "PriorityQueue is empty!",
    and leaves the queue as it was, empty; on a queue that is not empty it
    does not throw: it returns the front element and removes it. *)
Theorem poll_empty_throws {T} `{Arith T} :
  what EmptyPriorityQueue = "PriorityQueue is empty!"%string
  /\ poll (PriorityQueue_new : PriorityQueue T)
     = (inl EmptyPriorityQueue, PriorityQueue_new)
  /\ (forall vs : list T,
        let q := (poll_n (length vs) (push_all PriorityQueue_new vs)).2 in
        _data q = [] /\ poll q = (inl EmptyPriorityQueue, q))
  /\ (forall q : PriorityQueue T,
        match _data q with
        | [] => poll q = (inl EmptyPriorityQueue, q) /\ _data (poll q).2 = []
        | x :: l => poll q = (inr x, {| _data := l; _compare := _compare q |})
        end).
Proof.
  repeat split.
  - by rewrite drain_push_all.
  - by rewrite drain_push_all.
  - intros q. unfold poll. destruct (_data q) eqn:E; [|done].
    split; [done|]. exact E.
Qed.

(** C5: [push(v)] walks past exactly the leading elements [e] with
    [compare(e, v) < 0] and inserts [v] in front of the first element for
    which that is false, or at the end when there is none. *)
Theorem push_position {T} `{Arith T} (q : PriorityQueue T) (v : T) :
  exists l1 l2,
    _data q = l1 ++ l2
    /\ _data (push q v) = l1 ++ v :: l2
    /\ scan (_compare q) (_data q) v 0 = length l1
    /\ Forall (fun e => lt0 (operator_call (_compare q) e v) = true) l1
    /\ match l2 with
       | [] => True
       | e :: _ => lt0 (operator_call (_compare q) e v) = false
       end
    /\ _data (push q v)
       = OrderedQueue_push (operator_call (_compare q)) (_data q) v.
Proof.
  exists (take (scan (_compare q) (_data q) v 0) (_data q)),
         (drop (scan (_compare q) (_data q) v 0) (_data q)).
  split; [by rewrite take_drop|]. split; [reflexivity|].
  split; [|split; [|split]].
  - rewrite length_take. pose proof (scan_le_length (_compare q) (_data q) v). lia.
  - apply scan_passed_lt.
  - apply scan_stop_not_lt.
  - apply push_data.
Qed.

(** C6, as stated, fails on the order of equal ranks: two elements of rank
    [4] with payloads [1] and [2], pushed in that order, are polled as
    payload [2] then payload [1], and not in their insertion order.  (The
    returned sequence is non-decreasing; only the order of the ties is
    against the claim.) *)
Lemma conservation_tie_order_fails :
  poll_n 2 (push_all PriorityQueue_new [Ranked (SInt 4) 1; Ranked (SInt 4) 2]
            : PriorityQueue (ranked 32))
  = (inr [Ranked (SInt 4) 2; Ranked (SInt 4) 1], PriorityQueue_new)
  /\ cmp0 (operator_call Build_MyComparator_
             (Ranked (SInt 4) 1 : ranked 32) (Ranked (SInt 4) 2)) = Eq
  /\ adjacent le0 [Ranked (SInt 4) 2; Ranked (SInt 4) 1 : ranked 32]
  /\ ~ (exists out : list (ranked 32),
          poll_n 2 (push_all PriorityQueue_new
                      [Ranked (SInt 4) 1; Ranked (SInt 4) 2])
          = (inr out, PriorityQueue_new)
          /\ out ≡ₚ [Ranked (SInt 4) 1; Ranked (SInt 4) 2]
          /\ adjacent le0 out
          /\ [Ranked (SInt 4) 1; Ranked (SInt 4) 2] `sublist_of` out).
Proof.
  split; [reflexivity|]. split; [reflexivity|]. split.
  - intros l1 a b l2 E.
    destruct l1 as [|x [|y [|z l1]]]; simplify_eq/=. discriminate.
  - intros (out & Hout & _ & _ & Hsub).
    assert (out = [Ranked (SInt 4) 2; Ranked (SInt 4) 1]) as ->
      by (vm_compute in Hout; congruence).
    apply sublist_cons_l in Hsub as (k1 & k2 & Hk & Hsub).
    destruct k1 as [|x [|y [|z k1]]]; simplify_eq/=.
    apply sublist_nil_r in Hsub. discriminate.
Qed.

(** C6 (amended): for every sequence of [n] pushes on a new queue, [n] polls
    in a row all succeed and return the pushed values, each exactly once,
    and the queue is empty afterwards; a value pushed later comes out
    before an earlier one of equal rank; and when the comparator is such
    that [compare(e, v) < 0] being false gives [compare(v, e) <= 0], the
    returned sequence is non-decreasing under the comparator. *)
Theorem conservation {T} `{Arith T} (vs : list T) :
  exists out,
    poll_n (length vs) (push_all PriorityQueue_new vs)
    = (inr out, PriorityQueue_new)
    /\ out ≡ₚ vs
    /\ (forall l1 a l2 b l3,
          vs = l1 ++ a :: l2 ++ b :: l3 ->
          cmp0 (operator_call Build_MyComparator_ a b) = Eq ->
          [b; a] `sublist_of` out)
    /\ (sign_antisym -> adjacent le0 out).
Proof.
  exists (_data (push_all PriorityQueue_new vs)).
  split; [apply drain_push_all|]. split; [|split].
  - rewrite push_all_perm. simpl. by rewrite app_nil_r.
  - intros l1 a l2 b l3 -> Hab. apply push_all_later_first.
    rewrite operator_call_sub in Hab. congruence.
  - intros Hanti. apply adjacent_Sorted, push_all_Sorted; [done|constructor].
Qed.

Lemma conservation_witness :
  sign_antisym (T := ranked 32)
  /\ [Ranked (SInt 4) 2; Ranked (SInt 4) 1 : ranked 32]
     `sublist_of` _data (push_all PriorityQueue_new
                           [Ranked (SInt 5) 0; Ranked (SInt 4) 1; Ranked (SInt 4) 2])
  /\ adjacent le0
       (_data (push_all PriorityQueue_new
                 [Ranked (SInt 5) 0; Ranked (SInt 4) 1; Ranked (SInt 4) 2]
               : PriorityQueue (ranked 32))).
Proof.
  assert (sign_antisym (T := ranked 32)) as Hanti.
  { intros e v. apply (sint_antisym 32 (rank e) (rank v)). }
  split; [exact Hanti|].
  destruct (conservation [Ranked (SInt 5) 0; Ranked (SInt 4) 1; Ranked (SInt 4) 2
                          : ranked 32])
    as (out & Hout & _ & Htie & Hadj).
  rewrite drain_push_all in Hout. injection Hout as <-.
  split; [|exact (Hadj Hanti)].
  exact (Htie [Ranked (SInt 5) 0] (Ranked (SInt 4) 1) [] (Ranked (SInt 4) 2) []
           eq_refl eq_refl).
Defined.

(** C7: the default comparator returns [val1 - val2], and when that
    difference is representable in the element type (no overflow, no wrap)
    the result is negative exactly when [a < b], positive exactly when
    [a > b] and zero exactly when [a == b]; for the signed and for the
    unsigned integers alike. *)
Theorem comparator_exact (w : positive) :
  (forall (c : MyComparator (sint w)) (a b : sint w),
      srange w (sval a - sval b) ->
      operator_call c a b = SInt (sval a - sval b)
      /\ cmp0 (operator_call c a b) = (sval a ?= sval b)
      /\ (cmp0 (operator_call c a b) = Lt <-> sval a < sval b)
      /\ (cmp0 (operator_call c a b) = Gt <-> sval a > sval b)
      /\ (cmp0 (operator_call c a b) = Eq <-> sval a = sval b))
  /\ (forall (c : MyComparator (uint w)) (a b : uint w),
        urange w (uval a - uval b) ->
        operator_call c a b = UInt (uval a - uval b)
        /\ cmp0 (operator_call c a b) = (uval a ?= uval b)
        /\ (cmp0 (operator_call c a b) = Lt <-> uval a < uval b)
        /\ (cmp0 (operator_call c a b) = Gt <-> uval a > uval b)
        /\ (cmp0 (operator_call c a b) = Eq <-> uval a = uval b)).
Proof.
  split; intros c a b Hr; unfold operator_call; simpl.
  - rewrite (swrap_exact w _ Hr).
    assert ((sval a - sval b ?= 0) = (sval a ?= sval b)) as ->.
    { rewrite (Z.compare_sub (sval a) (sval b)). reflexivity. }
    repeat split; try apply Z.compare_eq_iff; try apply Z.compare_eq_iff;
      try (rewrite Z.compare_lt_iff; lia); try (rewrite Z.compare_gt_iff; lia).
  - rewrite (uwrap_exact w _ Hr).
    assert ((uval a - uval b ?= 0) = (uval a ?= uval b)) as ->.
    { rewrite (Z.compare_sub (uval a) (uval b)). reflexivity. }
    repeat split; try apply Z.compare_eq_iff; try apply Z.compare_eq_iff;
      try (rewrite Z.compare_lt_iff; lia); try (rewrite Z.compare_gt_iff; lia).
Qed.

Lemma comparator_exact_witness :
  srange 32 (sval (SInt 3 : sint 32) - sval (SInt 5 : sint 32))
  /\ operator_call Build_MyComparator_ (SInt 3 : sint 32) (SInt 5) = SInt (3 - 5)
  /\ cmp0 (operator_call Build_MyComparator_ (SInt 3 : sint 32) (SInt 5)) = (3 ?= 5).
Proof.
  assert (srange 32 (sval (SInt 3 : sint 32) - sval (SInt 5 : sint 32))) as Hr.
  { unfold srange, half; simpl; lia. }
  split; [exact Hr|].
  pose proof (proj1 (comparator_exact 32) Build_MyComparator_ (SInt 3) (SInt 5) Hr)
    as (Hv & Hc & _).
  split; [exact Hv | exact Hc].
Defined.

(** C8: on an unsigned [w]-bit element type the comparator's result,
    [a - b] modulo [2^w], is never below zero, whatever [a] and [b]; so the
    test [_compare( *it, t) < 0] of the scan never holds, the scan stops at
    the front, and every push inserts at the front. *)
Theorem unsigned_never_negative (w : positive) :
  (forall (c : MyComparator (uint w)) (a b : uint w),
      operator_call c a b = UInt ((uval a - uval b) mod 2 ^ Z.pos w)
      /\ (0 <=? uval (operator_call c a b)) = true
      /\ lt0 (operator_call c a b) = false)
  /\ (forall (q : PriorityQueue (uint w)) (v : uint w),
        scan (_compare q) (_data q) v 0 = 0%nat
        /\ _data (push q v) = v :: _data q).
Proof.
  assert (forall (c : MyComparator (uint w)) (a b : uint w),
             lt0 (operator_call c a b) = false) as Hlt.
  { intros c a b. apply lt0_false. rewrite operator_call_sub.
    apply uint_sub_not_lt. }
  split.
  - intros c a b. split; [reflexivity|]. split; [|apply Hlt].
    unfold operator_call; simpl.
    pose proof (uwrap_range w (uval a - uval b)) as Hr. unfold urange in Hr.
    apply Z.leb_le. lia.
  - intros q v.
    assert (scan (_compare q) (_data q) v 0 = 0%nat) as Hs.
    { destruct (_data q) as [|e l]; [done|]. cbn [scan]. by rewrite Hlt. }
    split; [exact Hs|]. unfold push; simpl. rewrite Hs.
    unfold list_insert_before. by rewrite take_0, drop_0.
Qed.

(** C10: [push(v)] keeps every element that was there, in the same
    relative order, and adds one copy of [v]: the old sequence is the new
    one with [v] taken out at the insertion place; nothing is removed,
    doubled or reordered, and the length grows by one. *)
Theorem push_frame {T} `{Arith T} (q : PriorityQueue T) (v : T) :
  length (_data (push q v)) = S (length (_data q))
  /\ (exists l1 l2, _data q = l1 ++ l2 /\ _data (push q v) = l1 ++ v :: l2)
  /\ _data q `sublist_of` _data (push q v)
  /\ _data (push q v) ≡ₚ v :: _data q
  /\ _compare (push q v) = _compare q.
Proof.
  rewrite push_data. split; [apply insert_length|]. split; [|split; [|split]].
  - destruct (insert_split sub (_data q) v) as (l1 & l2 & E1 & E2 & _).
    by exists l1, l2.
  - apply insert_sublist.
  - apply insert_perm.
  - reflexivity.
Qed.

(** ** Further properties of the comparator on integers *)

Section Wrap.
Variable w : positive.

(** A difference at or above [2^(w-1)] comes back lowered by [2^w]. *)
Lemma swrap_over x :
  half w <= x < 3 * half w -> swrap w x = x - 2 * half w.
Proof.
  intros Hx. unfold swrap. rewrite pow_half.
  assert (x - half w = (x + half w) mod (2 * half w)) as <-; [|lia].
  apply (Z.mod_unique _ _ 1); lia.
Qed.

(** A difference below [-2^(w-1)] comes back raised by [2^w]. *)
Lemma swrap_under x :
  - 3 * half w <= x < - half w -> swrap w x = x + 2 * half w.
Proof.
  intros Hx. unfold swrap. rewrite pow_half.
  assert (x + 3 * half w = (x + half w) mod (2 * half w)) as <-; [|lia].
  apply (Z.mod_unique _ _ (-1)); lia.
Qed.

Lemma uwrap_under x :
  - 2 ^ Z.pos w <= x < 0 -> uwrap w x = x + 2 ^ Z.pos w.
Proof.
  intros Hx. unfold uwrap.
  assert (x + 2 ^ Z.pos w = x mod 2 ^ Z.pos w) as <-; [|lia].
  apply (Z.mod_unique _ _ (-1)); lia.
Qed.

Lemma sint_eq (a b : sint w) : sval a = sval b -> a = b.
Proof. destruct a, b; simpl; congruence. Qed.

Lemma uint_eq (a b : uint w) : uval a = uval b -> a = b.
Proof. destruct a, b; simpl; congruence. Qed.

(** The wrapped opposite, in all cases: the least value is its own
    opposite. *)
Lemma swrap_opp_all x :
  swrap w (- x)
  = if swrap w x =? - half w then - half w else - swrap w x.
Proof.
  pose proof half_pos w as Hh. unfold swrap. rewrite pow_half.
  set (m := 2 * half w).
  pose proof (Z.mod_pos_bound (x + half w) m ltac:(lia)) as Hb.
  pose proof (Z.div_mod (x + half w) m ltac:(lia)) as Hd.
  destruct (Z.eqb_spec ((x + half w) mod m - half w) (- half w)) as [E|E].
  - assert (0 = (- x + half w) mod m) as <-; [|lia].
    apply (Z.mod_unique _ _ (1 - (x + half w) / m)); lia.
  - assert (m - (x + half w) mod m = (- x + half w) mod m) as <-; [|lia].
    apply (Z.mod_unique _ _ (- ((x + half w) / m))); lia.
Qed.

End Wrap.

(** X1: on a signed type narrower than [int], when [a] and [b] are values
    of the type, the sign of [compare(a, b)] is that of the order of [a]
    and [b] when [a - b] is representable in the type, and the opposite
    sign when it is not. *)
Theorem signed_sign_right_iff_exact (int_bits w : positive)
    (c : MyComparator (sint w)) (a b : sint w) :
  narrower_than_int int_bits w ->
  srange w (sval a) -> srange w (sval b) ->
  cmp0 (operator_call c a b)
  = if (- half w <=? sval a - sval b) && (sval a - sval b <? half w)
    then sval a ?= sval b
    else CompOpp (sval a ?= sval b).
Proof.
  unfold srange. intros _ Ha Hb. unfold operator_call; simpl.
  pose proof half_pos w as Hh.
  destruct (Z.leb_spec (- half w) (sval a - sval b)) as [Hlo|Hlo]; simpl.
  - destruct (Z.ltb_spec (sval a - sval b) (half w)) as [Hhi|Hhi].
    + rewrite swrap_exact by (unfold srange; lia).
      rewrite (Z.compare_sub (sval a) (sval b)). reflexivity.
    + rewrite swrap_over by lia.
      assert (sval a > sval b) as Hgt by lia. rewrite Hgt. simpl.
      apply Z.compare_lt_iff. lia.
  - rewrite swrap_under by lia.
    assert ((sval a ?= sval b) = Lt) as -> by (apply Z.compare_lt_iff; lia).
    simpl. apply Z.compare_gt_iff. lia.
Qed.

Lemma signed_sign_right_iff_exact_witness :
  narrower_than_int 32 8 /\ srange 8 100 /\ srange 8 (-100)
  /\ cmp0 (operator_call Build_MyComparator_ (SInt 100 : sint 8) (SInt (-100))) = Lt.
Proof.
  assert (narrower_than_int 32 8) as Hn by reflexivity.
  assert (srange 8 100) as Ha by (unfold srange, half; simpl; lia).
  assert (srange 8 (-100)) as Hb by (unfold srange, half; simpl; lia).
  split; [exact Hn|]. split; [exact Ha|]. split; [exact Hb|].
  exact (signed_sign_right_iff_exact 32 8 Build_MyComparator_
           (SInt 100) (SInt (-100)) Hn Ha Hb).
Defined.

(** X2: on a signed type narrower than [int], for values [a] and [b] of the
    type, [compare(b, a)] is the opposite of [compare(a, b)], except when
    [compare(a, b)] is the least value of the type: then [compare(b, a)] is
    that least value too, and both are negative. *)
Theorem signed_compare_swap (int_bits w : positive)
    (c : MyComparator (sint w)) (a b : sint w) :
  narrower_than_int int_bits w ->
  srange w (sval a) -> srange w (sval b) ->
  sval (operator_call c b a)
  = if sval (operator_call c a b) =? - half w
    then - half w
    else - sval (operator_call c a b).
Proof.
  intros _ _ _. unfold operator_call; simpl.
  replace (sval b - sval a) with (- (sval a - sval b)) by lia.
  apply swrap_opp_all.
Qed.

Lemma signed_compare_swap_witness :
  narrower_than_int 32 8 /\ srange 8 0 /\ srange 8 (-128)
  /\ sval (operator_call Build_MyComparator_ (SInt (-128) : sint 8) (SInt 0)) = -128
  /\ sval (operator_call Build_MyComparator_ (SInt 0 : sint 8) (SInt (-128))) = -128.
Proof.
  assert (narrower_than_int 32 8) as Hn by reflexivity.
  assert (srange 8 0) as Ha by (unfold srange, half; simpl; lia).
  assert (srange 8 (-128)) as Hb by (unfold srange, half; simpl; lia).
  split; [exact Hn|]. split; [exact Ha|]. split; [exact Hb|].
  split; [reflexivity|].
  exact (signed_compare_swap 32 8 Build_MyComparator_
           (SInt (-128)) (SInt 0) Hn Hb Ha).
Defined.

(** X3: on the integers, signed or unsigned, two values of the type have
    [compare(a, b) == 0] exactly when they are equal, wrap-around or not:
    elements of equal rank are equal values. *)
Theorem compare_zero_iff_equal (w : positive) :
  (forall (c : MyComparator (sint w)) (a b : sint w),
      srange w (sval a) -> srange w (sval b) ->
      (cmp0 (operator_call c a b) = Eq <-> a = b))
  /\ (forall (c : MyComparator (uint w)) (a b : uint w),
        urange w (uval a) -> urange w (uval b) ->
        (cmp0 (operator_call c a b) = Eq <-> a = b)).
Proof.
  pose proof half_pos w as Hh. split; intros c a b Ha Hb.
  - unfold srange in *. unfold operator_call; simpl.
    rewrite Z.compare_eq_iff. split; [|intros ->].
    + intros E. apply sint_eq.
      destruct (Z_lt_le_dec (sval a - sval b) (- half w)) as [Hlo|Hlo].
      { rewrite swrap_under in E by lia. lia. }
      destruct (Z_lt_le_dec (sval a - sval b) (half w)) as [Hhi|Hhi].
      { rewrite swrap_exact in E by (unfold srange; lia). lia. }
      rewrite swrap_over in E by lia. lia.
    + rewrite Z.sub_diag. apply swrap_exact. unfold srange. lia.
  - unfold urange in *. unfold operator_call; simpl.
    rewrite Z.compare_eq_iff. split; [|intros ->].
    + intros E. apply uint_eq.
      destruct (Z_lt_le_dec (uval a - uval b) 0) as [Hlo|Hlo].
      { rewrite uwrap_under in E by lia. lia. }
      rewrite uwrap_exact in E by (unfold urange; lia). lia.
    + rewrite Z.sub_diag. apply uwrap_exact. unfold urange. lia.
Qed.

Lemma compare_zero_iff_equal_witness :
  srange 32 7
  /\ (cmp0 (operator_call Build_MyComparator_ (SInt 7 : sint 32) (SInt 7)) = Eq
      <-> (SInt 7 : sint 32) = SInt 7).
Proof.
  assert (srange 32 7) as Ha by (unfold srange, half; simpl; lia).
  split; [exact Ha|].
  exact (proj1 (compare_zero_iff_equal 32) Build_MyComparator_ (SInt 7) (SInt 7) Ha Ha).
Defined.

(** X4: on the unsigned integers two different values of the type compare
    as positive in both directions: [compare(a, b) > 0] and
    [compare(b, a) > 0]. *)
Theorem unsigned_unequal_both_positive (w : positive)
    (c : MyComparator (uint w)) (a b : uint w) :
  urange w (uval a) -> urange w (uval b) -> uval a <> uval b ->
  cmp0 (operator_call c a b) = Gt /\ cmp0 (operator_call c b a) = Gt.
Proof.
  unfold urange. intros Ha Hb Hne. unfold operator_call; simpl.
  rewrite !Z.compare_gt_iff.
  destruct (Z_lt_le_dec (uval a) (uval b)) as [Hlt|Hge].
  - rewrite (uwrap_under w (uval a - uval b)) by lia.
    rewrite (uwrap_exact w (uval b - uval a)) by (unfold urange; lia). lia.
  - rewrite (uwrap_exact w (uval a - uval b)) by (unfold urange; lia).
    rewrite (uwrap_under w (uval b - uval a)) by lia. lia.
Qed.

Lemma unsigned_unequal_both_positive_witness :
  cmp0 (operator_call Build_MyComparator_ (UInt 1 : uint 32) (UInt 2)) = Gt
  /\ cmp0 (operator_call Build_MyComparator_ (UInt 2 : uint 32) (UInt 1)) = Gt.
Proof.
  apply (unsigned_unequal_both_positive 32 Build_MyComparator_ (UInt 1) (UInt 2));
    simpl; unfold urange; simpl; lia.
Defined.

(** ** Further properties of the queue *)

(** X5: a poll right after [push(v)] never throws.  When the queue was
    empty or its front was not strictly below [v], it returns [v] and the
    queue is as before the push; otherwise it returns the old front and
    leaves what polling first and pushing [v] afterwards leaves. *)
Theorem poll_after_push {T} `{Arith T} (q : PriorityQueue T) (v : T) :
  poll (push q v)
  = match _data q with
    | [] => (inr v, q)
    | e :: _ =>
        if lt0 (operator_call (_compare q) e v)
        then (inr e, push (poll q).2 v)
        else (inr v, q)
    end.
Proof.
  destruct q as [l c]. unfold poll, push. simpl.
  destruct l as [|e l]; simpl; [reflexivity|].
  destruct (lt0 (operator_call c e v)); [|reflexivity].
  rewrite (scan_shift c l v 1). reflexivity.
Qed.

(** X6: [n] polls in a row on a queue that holds at least [n] elements
    return its first [n] elements, front first, and leave the others in
    place; on a queue that holds fewer, the run throws and the queue is
    left empty. *)
Theorem poll_n_take_drop {T} `{Arith T} (n : nat) (q : PriorityQueue T) :
  poll_n n q
  = if (n <=? length (_data q))%nat
    then (inr (take n (_data q)),
          {| _data := drop n (_data q); _compare := _compare q |})
    else (inl EmptyPriorityQueue, {| _data := []; _compare := _compare q |}).
Proof.
  destruct q as [l c]. simpl. revert l.
  induction n as [|n IH]; intros l; simpl; [by rewrite drop_0|].
  unfold poll; simpl. destruct l as [|x l]; simpl; [reflexivity|].
  rewrite IH. by destruct (n <=? length l)%nat.
Qed.

(** X7: on an unsigned element type the queue is a stack: after the pushes
    [vs] it holds them last pushed first, in front of what it held before,
    and the polls that empty a new queue return them in the reverse of the
    push order. *)
Theorem unsigned_queue_is_stack (w : positive)
    (q : PriorityQueue (uint w)) (vs : list (uint w)) :
  _data (push_all q vs) = rev vs ++ _data q
  /\ poll_n (length vs) (push_all PriorityQueue_new vs)
     = (inr (rev vs), PriorityQueue_new).
Proof.
  assert (forall (q0 : PriorityQueue (uint w)) l,
             _data (push_all q0 l) = rev l ++ _data q0) as Hpush.
  { intros q0 l. revert q0. induction l as [|v l IH]; intros q0; [done|].
    cbn [push_all fold_left rev]. change (fold_left push l ?q1) with (push_all q1 l).
    rewrite IH, push_data, <- app_assoc. cbn [app]. f_equal.
    destruct (_data q0) as [|e d]; [done|]. cbn [OrderedQueue_push].
    pose proof (uint_sub_not_lt w e v) as Hnl. apply lt0_false in Hnl.
    by rewrite Hnl. }
  split; [apply Hpush|].
  rewrite drain_push_all, Hpush. simpl. by rewrite app_nil_r.
Qed.

(** ** The queue on signed integers without overflow *)

Section SignedOrder.
Variable w : positive.

Implicit Types (a b x y : sint w) (l : list (sint w)).

Lemma sle_trans a b x : sle a b -> sle b x -> sle a x.
Proof. unfold sle. lia. Qed.

Lemma sle_antisym a b : sle a b -> sle b a -> a = b.
Proof. unfold sle. intros ??. apply sint_eq. lia. Qed.

Lemma no_overflow_sublist l1 l2 :
  l1 ⊆ l2 -> no_overflow l2 -> no_overflow l1.
Proof. intros Hsub Hno a b Ha Hb. apply Hno; by apply Hsub. Qed.

Lemma no_overflow_perm l1 l2 : l1 ≡ₚ l2 -> no_overflow l1 -> no_overflow l2.
Proof. intros Hp Hno a b Ha Hb. apply Hno; by rewrite Hp. Qed.

(** Without overflow the comparator's test is the order of the values. *)
Lemma lt0_exact a b :
  srange w (sval a - sval b) -> (cmp0 (sub a b) = Lt <-> sval a < sval b).
Proof.
  intros Hr. simpl. rewrite (swrap_exact w _ Hr), Z.compare_lt_iff. lia.
Qed.

Lemma le0_exact a b :
  srange w (sval a - sval b) -> (le0 a b <-> sle a b).
Proof.
  intros Hr. unfold le0, sle. simpl. rewrite (swrap_exact w _ Hr).
  destruct (Z.compare_spec (sval a - sval b) 0); split; try done; lia.
Qed.

Lemma Sorted_le0_sle l : no_overflow l -> Sorted le0 l -> Sorted sle l.
Proof.
  intros Hno. induction 1 as [|x l Hs IH Hhd]; [constructor|].
  constructor.
  - apply IH. eapply no_overflow_sublist; [|exact Hno]. intros z Hz. elem.
  - destruct Hhd as [|y l Hxy]; constructor.
    apply le0_exact; [|done]. apply Hno; elem.
Qed.

Lemma StronglySorted_sle l : no_overflow l -> Sorted le0 l -> StronglySorted sle l.
Proof.
  intros Hno Hs. apply Sorted.Sorted_StronglySorted.
  - intros a b x. apply sle_trans.
  - by apply Sorted_le0_sle.
Qed.

End SignedOrder.

(** X8: on a signed element type, in every reachable queue state whose
    stored values have no overflowing difference, a poll that succeeds
    returns a smallest stored value. *)
Theorem poll_returns_minimum (w : positive)
    (q q' : PriorityQueue (sint w)) (x : sint w) :
  reachable q -> no_overflow (_data q) -> poll q = (inr x, q') ->
  forall y, y ∈ _data q -> sval x <= sval y.
Proof.
  intros Hq Hno Hp y Hy.
  pose proof (StronglySorted_sle w _ Hno (signed_reachable_Sorted w q Hq)) as Hs.
  unfold poll in Hp. destruct (_data q) as [|e l]; [done|].
  injection Hp as -> _.
  apply StronglySorted_cons in Hs as [Hall _].
  apply elem_of_cons in Hy as [->|Hy]; [lia|].
  rewrite Forall_forall in Hall. by apply Hall.
Qed.

Lemma poll_returns_minimum_witness :
  reachable (push_all PriorityQueue_new [SInt 5; SInt 1; SInt 3] : PriorityQueue (sint 32))
  /\ sval (SInt 1 : sint 32) <= sval (SInt 3 : sint 32).
Proof.
  assert (reachable (push_all PriorityQueue_new [SInt 5; SInt 1; SInt 3]
                     : PriorityQueue (sint 32))) as Hr by repeat constructor.
  split; [exact Hr|].
  refine (poll_returns_minimum 32 _ _ (SInt 1) Hr _ eq_refl (SInt 3) _).
  - intros a b Ha Hb. vm_compute in Ha, Hb.
    repeat (apply elem_of_cons in Ha as [->|Ha]);
      repeat (apply elem_of_cons in Hb as [->|Hb]);
      try (by apply not_elem_of_nil in Ha); try (by apply not_elem_of_nil in Hb);
      unfold srange, half; simpl; lia.
  - vm_compute. elem.
Defined.

(** X9: on a signed element type, pushes whose values have no overflowing
    difference leave the queue in ascending order of the values, and what
    the polls then return depends on the pushed values only, not on the
    order of the pushes. *)
Theorem poll_order_by_value (w : positive) (vs1 vs2 : list (sint w)) :
  no_overflow vs1 -> vs1 ≡ₚ vs2 ->
  Sorted sle (_data (push_all PriorityQueue_new vs1))
  /\ poll_n (length vs1) (push_all PriorityQueue_new vs1)
     = poll_n (length vs2) (push_all PriorityQueue_new vs2).
Proof.
  intros Hno Hperm.
  assert (forall vs : list (sint w),
             no_overflow vs ->
             StronglySorted sle (_data (push_all PriorityQueue_new vs))) as Hss.
  { intros vs Hvs. apply StronglySorted_sle.
    - eapply no_overflow_perm; [|exact Hvs].
      rewrite push_all_perm. simpl. by rewrite app_nil_r.
    - apply signed_reachable_Sorted. unfold push_all.
      generalize (reach_new (T := sint w)).
      generalize (PriorityQueue_new : PriorityQueue (sint w)).
      induction vs as [|v vs IH]; intros q0 Hq0; [done|].
      simpl. apply IH.
      + eapply no_overflow_sublist; [|exact Hvs]. intros z Hz. elem.
      + by constructor. }
  split.
  - apply StronglySorted_Sorted, Hss, Hno.
  - rewrite !drain_push_all. f_equal. f_equal.
    apply (StronglySorted_unique_strong sle).
    + intros a b _ _. apply sle_antisym.
    + by apply Hss.
    + apply Hss. by eapply no_overflow_perm.
    + rewrite !push_all_perm. simpl. by rewrite !app_nil_r.
Qed.

Lemma poll_order_by_value_witness :
  poll_n 3 (push_all PriorityQueue_new [SInt 5; SInt 1; SInt 3] : PriorityQueue (sint 32))
  = poll_n 3 (push_all PriorityQueue_new [SInt 3; SInt 5; SInt 1]).
Proof.
  refine (proj2 (poll_order_by_value 32 [SInt 5; SInt 1; SInt 3]
                   [SInt 3; SInt 5; SInt 1] _ _)).
  - intros a b Ha Hb.
    repeat (apply elem_of_cons in Ha as [->|Ha]);
      repeat (apply elem_of_cons in Hb as [->|Hb]);
      try (by apply not_elem_of_nil in Ha); try (by apply not_elem_of_nil in Hb);
      unfold srange, half; simpl; lia.
  - symmetry. apply (Permutation_cons_append [SInt 5; SInt 1] (SInt 3)).
Defined.

(** X10: on a signed element type, in a reachable state and without
    overflow among the stored values and [v], [push(v)] puts [v] behind
    every stored value that is smaller and in front of every stored value
    that is equal or larger. *)
Theorem push_splits_by_value (w : positive)
    (q : PriorityQueue (sint w)) (v : sint w) :
  reachable q -> no_overflow (v :: _data q) ->
  exists l1 l2,
    _data q = l1 ++ l2
    /\ _data (push q v) = l1 ++ v :: l2
    /\ Forall (fun e => sval e < sval v) l1
    /\ Forall (fun e => sval v <= sval e) l2.
Proof.
  intros Hq Hno.
  assert (no_overflow (_data q)) as Hnoq.
  { eapply no_overflow_sublist; [|exact Hno]. intros z Hz. elem. }
  pose proof (StronglySorted_sle w _ Hnoq (signed_reachable_Sorted w q Hq)) as Hs.
  destruct (insert_split sub (_data q) v) as (l1 & l2 & E & Ep & Hlt & Hhd).
  exists l1, l2. rewrite push_data. split; [done|]. split; [done|].
  rewrite E in Hs, Hno. split.
  - rewrite Forall_forall in Hlt |- *. intros e He.
    apply lt0_exact; [|by apply Hlt]. apply Hno; elem.
  - apply StronglySorted_app_1_r in Hs.
    destruct l2 as [|e0 l2]; [constructor|].
    assert (sval v <= sval e0) as Hv.
    { specialize (Hhd e0 l2 eq_refl).
      assert (srange w (sval e0 - sval v)) as Hr by (apply Hno; elem).
      rewrite (lt0_exact w e0 v Hr) in Hhd. lia. }
    constructor; [exact Hv|].
    apply StronglySorted_cons in Hs as [Hall _].
    rewrite Forall_forall in Hall |- *. intros e He.
    specialize (Hall e He). unfold sle in Hall. lia.
Qed.

Lemma push_splits_by_value_witness :
  exists l1 l2 : list (sint 32),
    _data (push_all PriorityQueue_new [SInt 5; SInt 1]) = l1 ++ l2
    /\ _data (push (push_all PriorityQueue_new [SInt 5; SInt 1]) (SInt 3))
       = l1 ++ SInt 3 :: l2
    /\ Forall (fun e => sval e < sval (SInt 3 : sint 32)) l1
    /\ Forall (fun e => sval (SInt 3 : sint 32) <= sval e) l2.
Proof.
  refine (push_splits_by_value 32 (push_all PriorityQueue_new [SInt 5; SInt 1])
            (SInt 3) _ _).
  - repeat constructor.
  - intros a b Ha Hb. vm_compute in Ha, Hb.
    repeat (apply elem_of_cons in Ha as [->|Ha]);
      repeat (apply elem_of_cons in Hb as [->|Hb]);
      try (by apply not_elem_of_nil in Ha); try (by apply not_elem_of_nil in Hb);
      unfold srange, half; simpl; lia.
Defined.
